(** * Petrovich: rule matching, inflection and gender detection

    A shallow embedding of [src/src/lib.rs] and [src/src/gender.rs].

    Text model: a Rust [&str] is a sequence of Unicode scalar values,
    here a [list char] with [char := N] (the code point).  [str::len] is the
    UTF-8 byte length and is modelled by [utf8_len]; [chars().count()] is the
    list length.  [str::ends_with] compares byte slices; on valid UTF-8 this
    coincides with the suffix test on code points used here.

    The compiled tables [RULES] and [GENDER] are produced by [build.rs] from
    YAML files that are not part of the sources; every operation takes them
    as arguments, so each theorem holds for every table.  Unicode
    lowercasing ([str::to_lowercase]) belongs to the standard library and is
    likewise an argument [to_lowercase].

    Panics are modelled by the option monad [M]: [None] is a panic.  The
    only panic the engine can reach is the [usize] subtraction in [inflect];
    whether it panics depends on the build's overflow checks
    ([OverflowMode]). *)

From Stdlib Require Import Ascii String.
From Stdlib Require Import List NArith ZArith Bool Lia.
Import ListNotations.

Local Open Scope N_scope.

(** ** Text *)

Definition char := N.
Definition str := list char.

Definition hyphen : char := 45.

Fixpoint str_eqb (a b : str) : bool :=
  match a, b with
  | [], [] => true
  | x :: xs, y :: ys => N.eqb x y && str_eqb xs ys
  | _, _ => false
  end.

(** Number of bytes of the UTF-8 encoding of one scalar value. *)
Definition utf8_width (c : char) : N :=
  if c <? 128 then 1
  else if c <? 2048 then 2
  else if c <? 65536 then 3
  else 4.

(** [str::len]: length in bytes. *)
Definition utf8_len (s : str) : N :=
  fold_right (fun c acc => utf8_width c + acc) 0 s.

(** [chars().count()] *)
Definition char_count (s : str) : N := N.of_nat (length s).

(** [str::ends_with]: [m >= n && needle == haystack[m - n ..]]. *)
Definition ends_with (s t : str) : bool :=
  Nat.leb (length t) (length s) && str_eqb (skipn (length s - length t) s) t.

(** [Iterator::take] *)
Fixpoint take {A} (n : N) (l : list A) : list A :=
  match l with
  | [] => []
  | x :: xs => if n =? 0 then [] else x :: take (N.pred n) xs
  end.

(** [str::split(sep)]: an empty string gives one empty part. *)
Fixpoint split (sep : char) (s : str) : list str :=
  match s with
  | [] => [[]]
  | c :: cs =>
      let rest := split sep cs in
      if c =? sep then [] :: rest
      else match rest with
           | [] => [[c]]
           | p :: ps => (c :: p) :: ps
           end
  end.

(** [<[String]>::join(sep)] *)
Fixpoint join (sep : str) (parts : list str) : str :=
  match parts with
  | [] => []
  | [p] => p
  | p :: ps => p ++ sep ++ join sep ps
  end.

Fixpoint count_char (c : char) (s : str) : nat :=
  match s with
  | [] => 0
  | x :: xs => (if N.eqb x c then 1 else 0) + count_char c xs
  end%nat.

(** ASCII literals as code points, for concrete inputs. *)
Definition s (x : String.string) : str :=
  map Ascii.N_of_ascii (String.list_ascii_of_string x).
Arguments s x%_string_scope.

(** ** Iterator helpers *)

(** [Iterator::max_by_key]: built on [cmp::max_by], which keeps the
    second argument unless the first compares [Greater]; on ties the last
    maximal element is returned. *)
Definition max_by_key {A} (f : A -> N) (l : list A) : option A :=
  match l with
  | [] => None
  | x :: xs => Some (fold_left (fun acc y => if f acc <=? f y then y else acc) xs x)
  end.

Definition option_or {A} (a b : option A) : option A :=
  match a with Some x => Some x | None => b end.

Definition unwrap_or {A} (a : option A) (d : A) : A :=
  match a with Some x => x | None => d end.

(** ** Panics *)

(** [None]: the thread panics. *)
Definition M (A : Type) := option A.
Definition ret {A} (a : A) : M A := Some a.
Definition bind {A B} (m : M A) (k : A -> M B) : M B :=
  match m with Some a => k a | None => None end.
Notation "x <- m ;; k" := (bind m (fun x => k))
  (at level 61, m at next level, right associativity).

Fixpoint traverse {A B} (f : A -> M B) (l : list A) : M (list B) :=
  match l with
  | [] => ret []
  | x :: xs => y <- f x ;; ys <- traverse f xs ;; ret (y :: ys)
  end.

(** [usize] subtraction: with overflow checks an underflow panics, without
    them it wraps modulo 2^64. *)
Inductive OverflowMode := Checked | Wrapping.

Definition usize_modulus : N := 2 ^ 64.

Definition usize_sub (mode : OverflowMode) (a b : N) : M N :=
  if b <=? a then ret (a - b)
  else match mode with
       | Checked => None
       | Wrapping => ret (Z.to_N ((Z.of_N a - Z.of_N b) mod Z.of_N usize_modulus))
       end.

(** ** Data model ([gender.rs], [lib.rs]) *)

Inductive Gender := Male | Female | Androgynous.

Definition gender_eqb (a b : Gender) : bool :=
  match a, b with
  | Male, Male | Female, Female | Androgynous, Androgynous => true
  | _, _ => false
  end.

Inductive Case := Genitive | Dative | Accusative | Instrumental | Prepositional.

Inductive RuleTag := FirstWord.

Definition ruletag_eqb (a b : RuleTag) : bool :=
  match a, b with FirstWord, FirstWord => true end.

(** [type Modifier = Option<(usize, &'static str)>] *)
Definition Modifier := option (N * str).

Record Rule := {
  gender : Gender;
  test : list str;
  mods : Modifier * Modifier * Modifier * Modifier * Modifier;
  tags : list RuleTag
}.

Record RuleList := {
  exceptions : list Rule;
  suffixes : list Rule
}.

(** [struct Rules { lastname, firstname, middlename }]; the field names are
    prefixed because the public functions of the same names are defined
    below. *)
Record Rules := {
  rules_lastname : RuleList;
  rules_firstname : RuleList;
  rules_middlename : RuleList
}.

(** [self.mods[case as usize]] *)
Definition modifier (r : Rule) (c : Case) : Modifier :=
  match mods r, c with
  | (m, _, _, _, _), Genitive => m
  | (_, m, _, _, _), Dative => m
  | (_, _, m, _, _), Accusative => m
  | (_, _, _, m, _), Instrumental => m
  | (_, _, _, _, m), Prepositional => m
  end.

Definition has_tag (r : Rule) (t : RuleTag) : bool :=
  existsb (ruletag_eqb t) (tags r).

Definition fully_matches (r : Rule) (name : str) : bool :=
  existsb (fun t => str_eqb t name) (test r).

Definition suffix_matches (r : Rule) (name : str) : bool :=
  existsb (fun t => ends_with name t) (test r).

Definition gender_matches (r : Rule) (g : Gender) : bool :=
  gender_eqb (gender r) g || gender_eqb (gender r) Androgynous.

(** ** Matcher *)

(** The predicate of [find_exception]. *)
Definition exception_matches (r : Rule) (name : str) (g : Gender) (is_last : bool) : bool :=
  fully_matches r name && gender_matches r g && (negb (has_tag r FirstWord) || negb is_last).

Definition find_exception (exs : list Rule) (name : str) (g : Gender) (is_last : bool)
  : option Rule :=
  find (fun r => exception_matches r name g is_last) exs.

(** The filter of [find_suffix]. *)
Definition suffix_candidate (r : Rule) (name : str) (g : Gender) : bool :=
  suffix_matches r name && gender_matches r g.

(** The key of [find_suffix]: byte length of the longest matching test.
    The [unwrap] cannot fail on a rule that passed [suffix_candidate]
    (see [longest_match_key_some]); its [None] branch is unreachable. *)
Definition longest_match_key (r : Rule) (name : str) : N :=
  match max_by_key utf8_len (filter (fun t => ends_with name t) (test r)) with
  | Some t => utf8_len t
  | None => 0
  end.

Definition find_suffix (sfx : list Rule) (name : str) (g : Gender) : option Rule :=
  max_by_key (fun r => longest_match_key r name)
    (filter (fun r => suffix_candidate r name g) sfx).

(** ** Inflector and splitter *)

Section Engine.

Variable to_lowercase : str -> str.
Variable mode : OverflowMode.

Definition inflect (name : str) (r : Rule) (c : Case) : M str :=
  match modifier r c with
  | Some (skip, postfix) =>
      n <- usize_sub mode (char_count name) skip ;;
      ret (take n name ++ postfix)
  | None => ret name
  end.

Definition inflect_name_part (g : Gender) (name : str) (c : Case) (rl : RuleList)
  (is_last : bool) : M (option str) :=
  let lowercase_name := to_lowercase name in
  match option_or (find_exception (exceptions rl) lowercase_name g is_last)
                  (find_suffix (suffixes rl) lowercase_name g) with
  | Some r => out <- inflect name r c ;; ret (Some out)
  | None => ret None
  end.

(** The mapped parts, collected into a [Vec] before the [join]. *)
Definition inflect_name_parts (g : Gender) (name : str) (c : Case) (rl : RuleList)
  : M (list str) :=
  let name_parts := split hyphen name in
  traverse (fun '(i, name_part) =>
              o <- inflect_name_part g name_part c rl
                     (Nat.eqb i (length name_parts - 1)) ;;
              ret (unwrap_or o name_part))
           (combine (seq 0 (length name_parts)) name_parts).

Definition inflect_name (g : Gender) (name : str) (c : Case) (rl : RuleList) : M str :=
  parts <- inflect_name_parts g name c rl ;; ret (join [hyphen] parts).

Variable RULES : Rules.

Definition firstname (g : Gender) (name : str) (c : Case) : M str :=
  inflect_name g name c (rules_firstname RULES).

Definition lastname (g : Gender) (name : str) (c : Case) : M str :=
  inflect_name g name c (rules_lastname RULES).

Definition middlename (g : Gender) (name : str) (c : Case) : M str :=
  inflect_name g name c (rules_middlename RULES).

End Engine.

(** ** Gender heuristic ([gender.rs]) *)

Module gender.

Record GenderMapping := {
  androgynous : list str;
  male : list str;
  female : list str
}.

Record GenderHeuristic := {
  exceptions : option GenderMapping;
  suffixes : GenderMapping
}.

Record GenderHeuristics := {
  lastname : GenderHeuristic;
  firstname : GenderHeuristic;
  middlename : GenderHeuristic
}.

Module GenderHeuristic.

(** The closure [find_exception]: [exceptions.contains(&name)]. *)
Definition find_exception (name : str) (exs : list str) : bool :=
  existsb (fun e => str_eqb e name) exs.

(** The closure [find_suffix]. *)
Definition find_suffix (name : str) (sfx : list str) : bool :=
  existsb (fun x => ends_with name x) sfx.

(** The [and_then] closure over the exceptions mapping. *)
Definition by_exception (name : str) (mapping : GenderMapping) : option Gender :=
  if find_exception name (androgynous mapping) then None
  else if find_exception name (female mapping) then Some Female
  else if find_exception name (male mapping) then Some Male
  else None.

(** The [or_else] closure over the suffixes mapping. *)
Definition by_suffix (name : str) (mapping : GenderMapping) : option Gender :=
  if find_suffix name (androgynous mapping) then None
  else if find_suffix name (female mapping) then Some Female
  else if find_suffix name (male mapping) then Some Male
  else None.

Definition detect_gender (self : GenderHeuristic) (name : str) : option Gender :=
  match match exceptions self with
        | Some mapping => by_exception name mapping
        | None => None
        end with
  | Some g => Some g
  | None => by_suffix name (suffixes self)
  end.

End GenderHeuristic.

Section Detect.

Variable to_lowercase : str -> str.
Variable GENDER : GenderHeuristics.

Definition and_then {A B} (o : option A) (f : A -> option B) : option B :=
  match o with Some a => f a | None => None end.

Definition or_else {A} (o : option A) (f : unit -> option A) : option A :=
  match o with Some a => Some a | None => f tt end.

Definition detect_gender (ln fn mn : option str) : Gender :=
  unwrap_or
    (or_else
       (or_else
          (and_then mn (fun m => GenderHeuristic.detect_gender (middlename GENDER) (to_lowercase m)))
          (fun _ => and_then fn (fun f => GenderHeuristic.detect_gender (firstname GENDER) (to_lowercase f))))
       (fun _ => and_then ln (fun l => GenderHeuristic.detect_gender (lastname GENDER) (to_lowercase l))))
    Androgynous.

End Detect.

End gender.

(** ** Reference definitions written from the specification's words *)

(** Spec 4.1, exception pass: the first rule in table order whose tests
    contain the fragment exactly, whose gender is the requested one or
    Androgynous, and which does not both carry [FirstWord] and face the last
    part. *)
Fixpoint spec_exception_pass (exs : list Rule) (name : str) (g : Gender) (is_last : bool)
  : option Rule :=
  match exs with
  | [] => None
  | r :: rest =>
      if existsb (fun t => str_eqb name t) (test r)
         && (gender_eqb (gender r) g || gender_eqb (gender r) Androgynous)
         && negb (existsb (fun t => match t with FirstWord => true end) (tags r) && is_last)
      then Some r
      else spec_exception_pass rest name g is_last
  end.

(** Spec 4.1, suffix pass: character length of the longest test string of
    the rule that is a suffix of the fragment. *)
Definition longest_match_chars (r : Rule) (name : str) : nat :=
  fold_right Nat.max 0%nat (map (@length char) (filter (fun t => ends_with name t) (test r))).

(** Spec 4.4: evaluate the provided parts in the given order; the first that
    yields Male or Female decides; default Androgynous. *)
Fixpoint first_definite (to_lowercase : str -> str)
  (parts : list (gender.GenderHeuristic * option str)) : Gender :=
  match parts with
  | [] => Androgynous
  | (h, Some v) :: rest =>
      match gender.GenderHeuristic.detect_gender h (to_lowercase v) with
      | Some Male => Male
      | Some Female => Female
      | _ => first_definite to_lowercase rest
      end
  | (_, None) :: rest => first_definite to_lowercase rest
  end.

(** A fragment that no rule of the list applies to. *)
Definition no_rule_applies (rl : RuleList) (lname : str) (g : Gender) (is_last : bool) : Prop :=
  (forall r, In r (exceptions rl) -> exception_matches r lname g is_last = false) /\
  (forall r, In r (suffixes rl) -> suffix_candidate r lname g = false).

(** The same rule with other tags. *)
Definition set_tags (ts : list RuleTag) (r : Rule) : Rule :=
  {| gender := gender r; test := test r; mods := mods r; tags := ts |}.

(** Hyphens appended by the rules of a list. *)
Definition appends_no_hyphen (rl : RuleList) : Prop :=
  forall r c k post, (In r (exceptions rl) \/ In r (suffixes rl)) ->
    modifier r c = Some (k, post) -> count_char hyphen post = 0%nat.

(** Every test string of every rule of the three lists is non-empty. *)
Definition tests_nonempty (RULES : Rules) : Prop :=
  forall rl r t,
    (rl = rules_lastname RULES \/ rl = rules_firstname RULES \/ rl = rules_middlename RULES) ->
    (In r (exceptions rl) \/ In r (suffixes rl)) -> In t (test r) -> t <> [].

(** ** Concrete tables for the examples *)

(** Lowercasing of ASCII and of the basic Cyrillic capitals, enough for the
    concrete inputs below. *)
Definition sample_lowercase (x : str) : str :=
  map (fun c => if (65 <=? c) && (c <=? 90) then c + 32
                else if (1040 <=? c) && (c <=? 1071) then c + 32
                else c) x.

Definition mods_all (m : Modifier) : Modifier * Modifier * Modifier * Modifier * Modifier :=
  (m, m, m, m, m).

Definition mk_rule (g : Gender) (ts : list str) (m : Modifier) (tg : list RuleTag) : Rule :=
  {| gender := g; test := ts; mods := mods_all m; tags := tg |}.

(** Cyrillic code points used below. *)
Definition cyr_a : char := 1072.     (* а *)
Definition cyr_ch : char := 1095.    (* ч *)
Definition cyr_i : char := 1080.     (* и *)
Definition cyr_e : char := 1077.     (* е *)

(** Suffix rules: "ич" (Male, 2 chars, 4 bytes) and "ch" (2 chars, 2 bytes). *)
Definition rule_ich : Rule := mk_rule Male [[cyr_i; cyr_ch]] (Some (0, [cyr_e])) [].
Definition rule_ch : Rule := mk_rule Androgynous [[cyr_ch]] (Some (0, [cyr_a])) [].

Definition sample_rules : RuleList :=
  {| exceptions := [mk_rule Androgynous [s "bonch"] None [FirstWord]];
     suffixes := [rule_ich; rule_ch] |}.

(** A second rule on "ч", tying with [rule_ch]. *)
Definition rule_ch2 : Rule := mk_rule Androgynous [[cyr_ch]] (Some (1, [cyr_ch; cyr_a])) [].

Definition sample_table : Rules :=
  {| rules_lastname := sample_rules; rules_firstname := sample_rules;
     rules_middlename := sample_rules |}.

(** A modifier written "a-" in the rule source: [build.rs] counts every '-'
    (one) and skips that many characters, giving [(1, "-")]. *)
Definition rule_dash : Rule := mk_rule Androgynous [s "a"] (Some (1, s "-")) [].

Definition dash_rules : RuleList := {| exceptions := []; suffixes := [rule_dash] |}.

(** A first-name heuristic listing "sasha" as androgynous and "a" as a
    female suffix. *)
Definition sample_heuristic : gender.GenderHeuristic :=
  {| gender.exceptions := Some {| gender.androgynous := [s "sasha"]; gender.male := [];
                                  gender.female := [] |};
     gender.suffixes := {| gender.androgynous := []; gender.male := [s "ov"];
                           gender.female := [s "a"] |} |}.

Definition sample_gender : gender.GenderHeuristics :=
  {| gender.lastname := sample_heuristic; gender.firstname := sample_heuristic;
     gender.middlename := sample_heuristic |}.

(** A heuristic whose exceptions contradict its suffixes: "lubov" ends in
    the male suffix "ov" but is a female exception, "ilya" ends in the
    female suffix "a" but is a male exception. *)
Definition exception_heuristic : gender.GenderHeuristic :=
  {| gender.exceptions := Some {| gender.androgynous := []; gender.male := [s "ilya"];
                                  gender.female := [s "lubov"] |};
     gender.suffixes := gender.suffixes sample_heuristic |}.

(** A heuristic without exceptions whose androgynous suffix "sha" overlaps
    the female suffix "a". *)
Definition suffix_heuristic : gender.GenderHeuristic :=
  {| gender.exceptions := None;
     gender.suffixes := {| gender.androgynous := [s "sha"]; gender.male := [s "ov"];
                           gender.female := [s "a"] |} |}.

(** ** Rule compiler ([build.rs], [generate_rule]) *)

(** One case modifier of a rule source: "." is identity; otherwise the
    trim count is the number of '-' characters of the modifier and the
    appended ending is the modifier without its first trim-count
    characters. *)
Definition parse_modifier (modifier : str) : Modifier :=
  if str_eqb modifier [46] then None
  else let dashes := count_char hyphen modifier in
       Some (N.of_nat dashes, skipn dashes modifier).

(** ** Deprecated API ([deprecated.rs]) *)

Module Petrovich.

(** [Petrovich::detect_gender(middlename)] *)
Definition detect_gender (to_lowercase : str -> str) (GENDER : gender.GenderHeuristics)
  (middlename : str) : Gender :=
  gender.detect_gender to_lowercase GENDER None None (Some middlename).

End Petrovich.

(** ** Derived tables *)

(** The rule list without its [FirstWord] exception rules. *)
Definition drop_firstword (rl : RuleList) : RuleList :=
  {| exceptions := filter (fun r => negb (has_tag r FirstWord)) (exceptions rl);
     suffixes := suffixes rl |}.

(** The rule list with every tag removed. *)
Definition strip_tags (rl : RuleList) : RuleList :=
  {| exceptions := map (set_tags []) (exceptions rl);
     suffixes := map (set_tags []) (suffixes rl) |}.

(** * Lemmas *)

(** ** Strings *)

Lemma str_eqb_eq : forall a b, str_eqb a b = true <-> a = b.
Proof.
  induction a as [|x xs IH]; intros [|y ys]; simpl; split; intro H;
    try discriminate; try reflexivity.
  - apply andb_prop in H as [H1 H2]. apply N.eqb_eq in H1. apply IH in H2. subst. reflexivity.
  - injection H as -> ->. rewrite N.eqb_refl. simpl. apply IH. reflexivity.
Qed.

Lemma ends_with_spec : forall s t,
  ends_with s t = true -> (length t <= length s)%nat /\ t = skipn (length s - length t) s.
Proof.
  unfold ends_with. intros s t H. apply andb_prop in H as [H1 H2].
  apply Nat.leb_le in H1. apply str_eqb_eq in H2. auto.
Qed.

Lemma ends_with_nil_r : forall t, ends_with [] t = true -> t = [].
Proof.
  intros t H. apply ends_with_spec in H as [H _]. destruct t; [reflexivity | simpl in H; lia].
Qed.

Lemma utf8_len_app : forall a b, utf8_len (a ++ b) = utf8_len a + utf8_len b.
Proof.
  induction a as [|x xs IH]; intros b; simpl; [reflexivity|].
  unfold utf8_len in *. simpl. rewrite IH. lia.
Qed.

Lemma utf8_width_pos : forall c, 1 <= utf8_width c.
Proof.
  intros c. unfold utf8_width.
  destruct (c <? 128); [lia|]. destruct (c <? 2048); [lia|].
  destruct (c <? 65536); lia.
Qed.

Lemma utf8_len_ge_length : forall l, N.of_nat (length l) <= utf8_len l.
Proof.
  induction l as [|x xs IH]; simpl; [lia|].
  unfold utf8_len in *. simpl. pose proof (utf8_width_pos x). lia.
Qed.

(** Byte length of the code-point suffix of length [k]. *)
Definition sfx_bytes (name : str) (k : nat) : N :=
  utf8_len (skipn (length name - k) name).

Lemma sfx_bytes_split : forall name k1 k2, (k1 <= k2 <= length name)%nat ->
  sfx_bytes name k2 =
  utf8_len (firstn (k2 - k1) (skipn (length name - k2) name)) + sfx_bytes name k1.
Proof.
  intros name k1 k2 H. unfold sfx_bytes.
  rewrite <- (firstn_skipn (k2 - k1) (skipn (length name - k2) name)) at 1.
  rewrite utf8_len_app, skipn_skipn.
  replace (k2 - k1 + (length name - k2))%nat with (length name - k1)%nat by lia.
  reflexivity.
Qed.

Lemma sfx_bytes_mono : forall name k1 k2, (k1 <= k2 <= length name)%nat ->
  sfx_bytes name k1 <= sfx_bytes name k2.
Proof.
  intros name k1 k2 H. rewrite (sfx_bytes_split name k1 k2 H). lia.
Qed.

Lemma sfx_bytes_strict : forall name k1 k2, (k1 < k2 <= length name)%nat ->
  sfx_bytes name k1 < sfx_bytes name k2.
Proof.
  intros name k1 k2 H. rewrite (sfx_bytes_split name k1 k2 ltac:(lia)).
  pose proof (utf8_len_ge_length (firstn (k2 - k1) (skipn (length name - k2) name))) as L.
  rewrite length_firstn, length_skipn in L. lia.
Qed.

Lemma ends_with_bytes : forall name t,
  ends_with name t = true -> utf8_len t = sfx_bytes name (length t).
Proof.
  intros name t H. apply ends_with_spec in H as [_ H]. unfold sfx_bytes.
  rewrite <- H. reflexivity.
Qed.

(** ** [max_by_key] *)

Section MaxByKey.

Context {A : Type} (f : A -> N).

Let step := fun acc y => if f acc <=? f y then y else acc.

Lemma fold_step_in : forall l acc, In (fold_left step l acc) (acc :: l).
Proof.
  induction l as [|y ys IH]; intros acc; simpl; [auto|].
  specialize (IH (step acc y)). unfold step in *.
  destruct (f acc <=? f y); simpl in IH; intuition.
Qed.

Lemma step_ge_acc : forall acc y, f acc <= f (step acc y).
Proof. intros acc y. unfold step. destruct (N.leb_spec (f acc) (f y)); lia. Qed.

Lemma step_ge_new : forall acc y, f y <= f (step acc y).
Proof. intros acc y. unfold step. destruct (N.leb_spec (f acc) (f y)); lia. Qed.

Lemma fold_step_ge_acc : forall l acc, f acc <= f (fold_left step l acc).
Proof.
  induction l as [|z zs IH]; intros acc; simpl; [lia|].
  specialize (IH (step acc z)). pose proof (step_ge_acc acc z). lia.
Qed.

Lemma fold_step_ge : forall l acc y, In y l -> f y <= f (fold_left step l acc).
Proof.
  induction l as [|z zs IH]; intros acc y Hy; simpl in *; [contradiction|].
  destruct Hy as [->|Hy]; [|auto].
  pose proof (step_ge_new acc y). pose proof (fold_step_ge_acc zs (step acc y)). lia.
Qed.

Lemma fold_step_stay : forall l acc, (forall y, In y l -> f y < f acc) ->
  fold_left step l acc = acc.
Proof.
  induction l as [|z zs IH]; intros acc H; simpl; [reflexivity|].
  unfold step at 2. destruct (N.leb_spec (f acc) (f z)).
  - specialize (H z (or_introl eq_refl)). lia.
  - apply IH. intros y Hy. apply H. right. exact Hy.
Qed.

Lemma fold_step_bound : forall l acc B, (forall y, In y l -> f y <= B) -> f acc <= B ->
  f (fold_left step l acc) <= B.
Proof.
  induction l as [|z zs IH]; intros acc B H Hacc; simpl; [exact Hacc|].
  apply IH.
  - intros y Hy. apply H. right. exact Hy.
  - unfold step. destruct (f acc <=? f z); [apply H; left; reflexivity | exact Hacc].
Qed.

Lemma max_by_key_in : forall l x, max_by_key f l = Some x -> In x l.
Proof.
  intros [|y ys] x H; simpl in H; [discriminate|].
  injection H as <-. apply (fold_step_in ys y).
Qed.

Lemma max_by_key_ge : forall l x, max_by_key f l = Some x -> forall y, In y l -> f y <= f x.
Proof.
  intros [|z zs] x H y Hy; simpl in H; [discriminate|].
  injection H as <-. destruct Hy as [->|Hy].
  - apply fold_step_ge_acc.
  - apply fold_step_ge. exact Hy.
Qed.

Lemma max_by_key_none : forall l, max_by_key f l = None -> l = [].
Proof. intros [|y ys] H; [reflexivity | discriminate]. Qed.

(** The last element of greatest key is returned. *)
Lemma max_by_key_last : forall l1 x l2,
  (forall y, In y l1 -> f y <= f x) -> (forall y, In y l2 -> f y < f x) ->
  max_by_key f (l1 ++ x :: l2) = Some x.
Proof.
  intros l1 x l2 H1 H2. destruct l1 as [|a l1]; simpl.
  - f_equal. apply fold_step_stay. exact H2.
  - f_equal. rewrite fold_left_app. simpl.
    change (fold_left step l2 (step (fold_left step l1 a) x) = x).
    assert (f (fold_left step l1 a) <= f x) as Hb.
    { apply fold_step_bound; [intros y Hy; apply H1; right; exact Hy |].
      apply H1. left. reflexivity. }
    assert (step (fold_left step l1 a) x = x) as ->.
    { unfold step at 1. destruct (N.leb_spec (f (fold_left step l1 a)) (f x)); [reflexivity | lia]. }
    apply fold_step_stay. exact H2.
Qed.

End MaxByKey.

Lemma max_by_key_map : forall {A} (f : A -> N) (g : A -> A) l,
  (forall a, f (g a) = f a) -> max_by_key f (map g l) = option_map g (max_by_key f l).
Proof.
  intros A f g [|x xs] Hf; simpl; [reflexivity|]. f_equal.
  revert x. induction xs as [|y ys IH]; intros x; simpl; [reflexivity|].
  rewrite !Hf. destruct (f x <=? f y); apply IH.
Qed.

(** ** Longest matching test *)

Section FoldMax.
Local Open Scope nat_scope.

Lemma fold_max_ge : forall (l : list nat) x, In x l -> (x <= fold_right Nat.max 0%nat l)%nat.
Proof.
  induction l as [|y ys IH]; intros x Hx; simpl in *; [contradiction|].
  destruct Hx as [->|Hx]; [lia|]. specialize (IH x Hx). lia.
Qed.

Lemma fold_max_in : forall (l : list nat), l <> [] -> In (fold_right Nat.max 0%nat l) l.
Proof.
  induction l as [|y ys IH]; intros Hl; [congruence|]. simpl.
  destruct ys as [|z zs].
  - simpl. left. lia.
  - specialize (IH ltac:(discriminate)).
    destruct (Nat.max_spec y (fold_right Nat.max 0 (z :: zs))) as [[_ ->]|[_ ->]].
    + right. exact IH.
    + left. reflexivity.
Qed.

End FoldMax.

Lemma matching_tests_nonempty : forall r name,
  suffix_matches r name = true -> filter (fun t => ends_with name t) (test r) <> [].
Proof.
  intros r name H Hnil. unfold suffix_matches in H.
  apply existsb_exists in H as [t [Ht Hm]].
  assert (In t (filter (fun t => ends_with name t) (test r))) as Hin
    by (apply filter_In; auto).
  rewrite Hnil in Hin. contradiction.
Qed.

(** The [unwrap] of [find_suffix] is never reached with [None]. *)
Lemma longest_match_key_some : forall r name, suffix_matches r name = true ->
  exists t, max_by_key utf8_len (filter (fun t => ends_with name t) (test r)) = Some t.
Proof.
  intros r name H. apply matching_tests_nonempty in H.
  destruct (max_by_key utf8_len (filter (fun t => ends_with name t) (test r))) eqn:E.
  - eauto.
  - apply max_by_key_none in E. contradiction.
Qed.

Lemma longest_match_chars_le : forall r name, (longest_match_chars r name <= length name)%nat.
Proof.
  intros r name. unfold longest_match_chars.
  induction (test r) as [|t ts IH]; simpl; [lia|].
  destruct (ends_with name t) eqn:E; simpl; [|exact IH].
  apply ends_with_spec in E as [E _]. lia.
Qed.

(** The byte-length key is the byte length of the code-point suffix whose
    length is the longest matching test's character length. *)
Lemma longest_match_key_chars : forall r name, suffix_matches r name = true ->
  longest_match_key r name = sfx_bytes name (longest_match_chars r name).
Proof.
  intros r name H.
  pose proof (matching_tests_nonempty r name H) as Hne.
  destruct (longest_match_key_some r name H) as [t Ht].
  unfold longest_match_key. rewrite Ht.
  set (L := filter (fun t => ends_with name t) (test r)) in *.
  assert (forall u, In u L -> ends_with name u = true) as HL
    by (intros u Hu; apply filter_In in Hu; tauto).
  pose proof (max_by_key_in utf8_len L t Ht) as Htin.
  pose proof (max_by_key_ge utf8_len L t Ht) as Htmax.
  unfold longest_match_chars. fold L.
  assert (map (@length char) L <> []) as Hne'
    by (destruct L; [contradiction | discriminate]).
  pose proof (fold_max_in _ Hne') as Hin. apply in_map_iff in Hin as [t0 [Ht0 Ht0in]].
  rewrite <- Ht0.
  assert (length t <= length t0)%nat as Hle.
  { rewrite Ht0. apply fold_max_ge. apply in_map. exact Htin. }
  pose proof (ends_with_bytes name t (HL t Htin)) as Bt.
  pose proof (ends_with_bytes name t0 (HL t0 Ht0in)) as Bt0.
  pose proof (ends_with_spec name t0 (HL t0 Ht0in)) as [Hlen0 _].
  pose proof (sfx_bytes_mono name (length t) (length t0) ltac:(lia)).
  pose proof (Htmax t0 Ht0in). lia.
Qed.

Lemma key_lt_of_chars_lt : forall r1 r2 name,
  suffix_matches r1 name = true -> suffix_matches r2 name = true ->
  (longest_match_chars r1 name < longest_match_chars r2 name)%nat ->
  longest_match_key r1 name < longest_match_key r2 name.
Proof.
  intros r1 r2 name H1 H2 Hlt.
  rewrite (longest_match_key_chars r1 name H1), (longest_match_key_chars r2 name H2).
  apply sfx_bytes_strict. pose proof (longest_match_chars_le r2 name). lia.
Qed.

Lemma key_le_of_chars_le : forall r1 r2 name,
  suffix_matches r1 name = true -> suffix_matches r2 name = true ->
  (longest_match_chars r1 name <= longest_match_chars r2 name)%nat ->
  longest_match_key r1 name <= longest_match_key r2 name.
Proof.
  intros r1 r2 name H1 H2 Hle.
  rewrite (longest_match_key_chars r1 name H1), (longest_match_key_chars r2 name H2).
  apply sfx_bytes_mono. pose proof (longest_match_chars_le r2 name). lia.
Qed.

(** ** Matcher lemmas *)

Lemma str_eqb_sym : forall a b, str_eqb a b = str_eqb b a.
Proof.
  intros a b. destruct (str_eqb a b) eqn:E1, (str_eqb b a) eqn:E2; auto.
  - apply str_eqb_eq in E1. subst. rewrite (proj2 (str_eqb_eq b b) eq_refl) in E2. discriminate.
  - apply str_eqb_eq in E2. subst. rewrite (proj2 (str_eqb_eq a a) eq_refl) in E1. discriminate.
Qed.

Lemma candidate_suffix_matches : forall r name g,
  suffix_candidate r name g = true -> suffix_matches r name = true.
Proof. intros r name g H. apply andb_prop in H. tauto. Qed.

Lemma find_suffix_in : forall sfx name g r,
  find_suffix sfx name g = Some r -> In r sfx /\ suffix_candidate r name g = true.
Proof.
  intros sfx name g r H. apply max_by_key_in in H. apply filter_In in H. exact H.
Qed.

Lemma filter_map_set_tags : forall ts sfx name g,
  filter (fun r => suffix_candidate r name g) (map (set_tags ts) sfx) =
  map (set_tags ts) (filter (fun r => suffix_candidate r name g) sfx).
Proof.
  intros ts sfx name g. induction sfx as [|r rs IH]; simpl; [reflexivity|].
  change (suffix_candidate (set_tags ts r) name g) with (suffix_candidate r name g).
  destruct (suffix_candidate r name g); simpl; rewrite IH; reflexivity.
Qed.

Lemma existsb_ext' : forall {A} (f g : A -> bool) l,
  (forall x, f x = g x) -> existsb f l = existsb g l.
Proof. intros A f g l H. induction l as [|x xs IH]; simpl; [reflexivity|]. rewrite H, IH. reflexivity. Qed.

Lemma exception_matches_reference : forall r name g is_last,
  exception_matches r name g is_last =
  existsb (fun t => str_eqb name t) (test r)
  && (gender_eqb (gender r) g || gender_eqb (gender r) Androgynous)
  && negb (existsb (fun t => match t with FirstWord => true end) (tags r) && is_last).
Proof.
  intros r name g is_last. unfold exception_matches, fully_matches, gender_matches, has_tag.
  rewrite negb_andb.
  replace (existsb (fun t => str_eqb t name) (test r))
    with (existsb (fun t => str_eqb name t) (test r))
    by (apply existsb_ext'; intros; apply str_eqb_sym).
  replace (existsb (ruletag_eqb FirstWord) (tags r))
    with (existsb (fun t => match t with FirstWord => true end) (tags r))
    by (apply existsb_ext'; intros []; reflexivity).
  reflexivity.
Qed.

(** ** Splitter lemmas *)

Lemma split_not_nil : forall sep x, split sep x <> [].
Proof.
  intros sep [|c cs]; simpl; [discriminate|].
  destruct (c =? sep); [discriminate|]. destruct (split sep cs); discriminate.
Qed.

Lemma split_length : forall sep x, length (split sep x) = S (count_char sep x).
Proof.
  intros sep x. induction x as [|c cs IH]; simpl; [reflexivity|].
  destruct (N.eqb_spec c sep) as [->|Hne].
  - try rewrite N.eqb_refl. simpl. rewrite IH. reflexivity.
  - try rewrite (proj2 (N.eqb_neq c sep) Hne). simpl.
    destruct (split sep cs) as [|p ps] eqn:E; simpl in *; lia.
Qed.

Lemma split_parts_no_sep : forall sep x p, In p (split sep x) -> count_char sep p = 0%nat.
Proof.
  intros sep x. induction x as [|c cs IH]; intros p Hp; simpl in Hp.
  - destruct Hp as [<-|[]]. reflexivity.
  - destruct (N.eqb_spec c sep) as [->|Hne].
    + destruct Hp as [<-|Hp]; [reflexivity | auto].
    + destruct (split sep cs) as [|q qs] eqn:E.
      * destruct Hp as [<-|[]]. simpl. try rewrite (proj2 (N.eqb_neq c sep) Hne). reflexivity.
      * destruct Hp as [<-|Hp].
        -- simpl. try rewrite (proj2 (N.eqb_neq c sep) Hne). apply IH. left. reflexivity.
        -- apply IH. right. exact Hp.
Qed.

Lemma join_split : forall sep x, join [sep] (split sep x) = x.
Proof.
  intros sep x. induction x as [|c cs IH]; simpl; [reflexivity|].
  destruct (N.eqb_spec c sep) as [->|Hne].
  - try rewrite N.eqb_refl. pose proof (split_not_nil sep cs).
    destruct (split sep cs) as [|p ps]; [congruence|].
    change (join [sep] ([] :: p :: ps)) with ([] ++ [sep] ++ join [sep] (p :: ps)).
    rewrite IH. reflexivity.
  - try rewrite (proj2 (N.eqb_neq c sep) Hne).
    destruct (split sep cs) as [|p ps] eqn:E; [exfalso; exact (split_not_nil sep cs E)|].
    destruct ps as [|q qs]; simpl in *; rewrite IH; reflexivity.
Qed.

Lemma count_char_app : forall c a b, count_char c (a ++ b) = (count_char c a + count_char c b)%nat.
Proof. intros c a b. induction a as [|x xs IH]; simpl; [reflexivity|]. rewrite IH. lia. Qed.

Lemma count_char_join : forall c ps, ps <> [] ->
  (forall p, In p ps -> count_char c p = 0%nat) ->
  count_char c (join [c] ps) = (length ps - 1)%nat.
Proof.
  intros c ps. induction ps as [|p ps IH]; intros Hne H; [congruence|].
  destruct ps as [|q qs].
  - simpl. apply H. left. reflexivity.
  - change (join [c] (p :: q :: qs)) with (p ++ [c] ++ join [c] (q :: qs)).
    rewrite !count_char_app. rewrite IH by (discriminate || (intros; apply H; right; auto)).
    rewrite (H p (or_introl eq_refl)). simpl. try rewrite N.eqb_refl. lia.
Qed.

Lemma take_firstn : forall {A} n (l : list A), take n l = firstn (N.to_nat n) l.
Proof.
  intros A n l. revert n. induction l as [|x xs IH]; intros n; simpl.
  - destruct (N.to_nat n); reflexivity.
  - destruct (N.eqb_spec n 0) as [->|Hn]; [reflexivity|].
    rewrite IH. replace (N.to_nat n) with (S (N.to_nat (N.pred n))) by lia. reflexivity.
Qed.

Lemma count_char_take : forall c n l, (count_char c (take n l) <= count_char c l)%nat.
Proof.
  intros c n l. rewrite take_firstn.
  rewrite <- (firstn_skipn (N.to_nat n) l) at 2. rewrite count_char_app. lia.
Qed.

(** ** Traversal *)

Lemma traverse_nth : forall {A B} (f : A -> M B) l outs i x,
  traverse f l = Some outs -> nth_error l i = Some x ->
  exists y, f x = Some y /\ nth_error outs i = Some y.
Proof.
  intros A B f l. induction l as [|a l IH]; intros outs i x Ht Hi.
  - destruct i; discriminate.
  - simpl in Ht. destruct (f a) as [y|] eqn:Ef; [|discriminate]. simpl in Ht.
    destruct (traverse f l) as [ys|] eqn:Et; [|discriminate]. simpl in Ht.
    injection Ht as <-. destruct i as [|i]; simpl in Hi.
    + injection Hi as <-. eauto.
    + destruct (IH ys i x eq_refl Hi) as [z [Hz Hn]]. eauto.
Qed.

Lemma traverse_length : forall {A B} (f : A -> M B) l outs,
  traverse f l = Some outs -> length outs = length l.
Proof.
  intros A B f l. induction l as [|a l IH]; intros outs Ht; simpl in Ht.
  - injection Ht as <-. reflexivity.
  - destruct (f a); [|discriminate]. simpl in Ht.
    destruct (traverse f l) as [ys|] eqn:Et; [|discriminate]. simpl in Ht.
    injection Ht as <-. simpl. rewrite (IH ys eq_refl). reflexivity.
Qed.

Lemma traverse_in : forall {A B} (f : A -> M B) l outs y,
  traverse f l = Some outs -> In y outs -> exists x, In x l /\ f x = Some y.
Proof.
  intros A B f l. induction l as [|a l IH]; intros outs y Ht Hy; simpl in Ht.
  - injection Ht as <-. contradiction.
  - destruct (f a) as [z|] eqn:Ef; [|discriminate]. simpl in Ht.
    destruct (traverse f l) as [ys|] eqn:Et; [|discriminate]. simpl in Ht.
    injection Ht as <-. destruct Hy as [<-|Hy].
    + exists a. split; [left|]; auto.
    + destruct (IH ys y eq_refl Hy) as [x [Hx Hfx]]. exists x. split; [right|]; auto.
Qed.

Lemma traverse_pointwise : forall {A B} (f : A -> M B) (g : A -> B) l,
  (forall x, In x l -> f x = Some (g x)) -> traverse f l = Some (map g l).
Proof.
  intros A B f g l. induction l as [|a l IH]; intros H; simpl; [reflexivity|].
  rewrite (H a (or_introl eq_refl)). simpl.
  rewrite IH by (intros; apply H; right; auto). reflexivity.
Qed.

Lemma nth_error_combine_seq : forall {A} (l : list A) k i x,
  nth_error l i = Some x -> nth_error (combine (seq k (length l)) l) i = Some (k + i, x)%nat.
Proof.
  intros A l. induction l as [|a l IH]; intros k i x H; [destruct i; discriminate|].
  destruct i as [|i]; simpl in *.
  - injection H as <-. rewrite Nat.add_0_r. reflexivity.
  - rewrite (IH (S k) i x H). f_equal. f_equal. lia.
Qed.

Lemma in_combine_seq : forall {A} (l : list A) k i x,
  In (i, x) (combine (seq k (length l)) l) -> (k <= i)%nat /\ nth_error l (i - k) = Some x.
Proof.
  intros A l. induction l as [|a l IH]; intros k i x H; simpl in H; [contradiction|].
  destruct H as [H|H].
  - injection H as <- <-. rewrite Nat.sub_diag. auto.
  - destruct (IH (S k) i x H) as [Hk Hn]. split; [lia|].
    replace (i - k)%nat with (S (i - S k)) by lia. exact Hn.
Qed.

Lemma map_snd_combine_seq : forall {A} (l : list A) k,
  map snd (combine (seq k (length l)) l) = l.
Proof.
  intros A l. induction l as [|a l IH]; intros k; simpl; [reflexivity|]. rewrite IH. reflexivity.
Qed.

(** ** Part inflection lemmas *)

Lemma find_all_false : forall {A} (f : A -> bool) l,
  (forall x, In x l -> f x = false) -> find f l = None.
Proof.
  intros A f l H. induction l as [|x xs IH]; simpl; [reflexivity|].
  rewrite (H x (or_introl eq_refl)). apply IH. intros y Hy. apply H. right. exact Hy.
Qed.

Lemma filter_all_false : forall {A} (f : A -> bool) l,
  (forall x, In x l -> f x = false) -> filter f l = [].
Proof.
  intros A f l H. induction l as [|x xs IH]; simpl; [reflexivity|].
  rewrite (H x (or_introl eq_refl)). apply IH. intros y Hy. apply H. right. exact Hy.
Qed.

Lemma inflect_name_part_unmatched : forall lower mode g part c rl is_last,
  no_rule_applies rl (lower part) g is_last ->
  inflect_name_part lower mode g part c rl is_last = ret None.
Proof.
  intros lower mode g part c rl is_last [Hex Hsf]. unfold inflect_name_part.
  unfold find_exception. rewrite (find_all_false _ _ Hex).
  unfold find_suffix. rewrite (filter_all_false _ _ Hsf). reflexivity.
Qed.

Lemma inflect_name_part_rule : forall lower mode g part c rl is_last o,
  inflect_name_part lower mode g part c rl is_last = Some (Some o) ->
  exists r, (In r (exceptions rl) \/ In r (suffixes rl)) /\ inflect mode part r c = Some o.
Proof.
  intros lower mode g part c rl is_last o H. unfold inflect_name_part in H.
  destruct (find_exception (exceptions rl) (lower part) g is_last) as [r|] eqn:Ee; simpl in H.
  - apply find_some in Ee as [Hin _].
    destruct (inflect mode part r c) eqn:Ei; simpl in H; [|discriminate].
    injection H as ->. eauto.
  - destruct (find_suffix (suffixes rl) (lower part) g) as [r|] eqn:Es; [|discriminate].
    apply find_suffix_in in Es as [Hin _].
    destruct (inflect mode part r c) eqn:Ei; simpl in H; [|discriminate].
    injection H as ->. eauto.
Qed.

Lemma inflect_shape : forall mode name r c o, inflect mode name r c = Some o ->
  o = name \/ exists k post n, modifier r c = Some (k, post) /\ o = take n name ++ post.
Proof.
  intros mode name r c o H. unfold inflect in H.
  destruct (modifier r c) as [[k post]|] eqn:Em.
  - destruct (usize_sub mode (char_count name) k) as [n|]; simpl in H; [|discriminate].
    injection H as <-. right. eauto.
  - injection H as <-. left. reflexivity.
Qed.

(** With every part unmatched the name comes back unchanged. *)
Lemma inflect_name_all_unmatched : forall lower mode g name c rl,
  (forall i part, nth_error (split hyphen name) i = Some part ->
     no_rule_applies rl (lower part) g (Nat.eqb i (length (split hyphen name) - 1))) ->
  inflect_name lower mode g name c rl = Some name.
Proof.
  intros lower mode g name c rl H. unfold inflect_name, inflect_name_parts.
  rewrite (traverse_pointwise _ snd).
  - simpl. rewrite map_snd_combine_seq, join_split. reflexivity.
  - intros [i part] Hin. apply (in_combine_seq _ 0) in Hin as [_ Hn].
    rewrite Nat.sub_0_r in Hn.
    rewrite (inflect_name_part_unmatched _ _ _ _ _ _ _ (H i part Hn)). reflexivity.
Qed.

Lemma split_no_hyphen : forall x, count_char hyphen x = 0%nat -> split hyphen x = [x].
Proof.
  intros x H. pose proof (split_length hyphen x) as L. rewrite H in L.
  pose proof (join_split hyphen x) as J.
  destruct (split hyphen x) as [|p [|q qs]]; simpl in L; try discriminate.
  simpl in J. rewrite J. reflexivity.
Qed.

Lemma empty_name_unmatched : forall rl (lower : str -> str) g is_last, lower [] = [] ->
  (forall r t, (In r (exceptions rl) \/ In r (suffixes rl)) -> In t (test r) -> t <> []) ->
  no_rule_applies rl (lower []) g is_last.
Proof.
  intros rl lower g is_last Hl Ht. rewrite Hl. split.
  - intros r Hr. unfold exception_matches, fully_matches.
    destruct (existsb (fun t => str_eqb t []) (test r)) eqn:E; [|reflexivity].
    apply existsb_exists in E as [t [Hin Heq]]. apply str_eqb_eq in Heq.
    exfalso. exact (Ht r t (or_introl Hr) Hin Heq).
  - intros r Hr. unfold suffix_candidate, suffix_matches.
    destruct (existsb (fun t => ends_with [] t) (test r)) eqn:E; [|reflexivity].
    apply existsb_exists in E as [t [Hin Heq]]. apply ends_with_nil_r in Heq.
    exfalso. exact (Ht r t (or_intror Hr) Hin Heq).
Qed.

(** ** Inflector lemmas *)

Lemma usize_sub_le : forall mode a b, b <= a -> usize_sub mode a b = Some (a - b).
Proof.
  intros mode a b H. unfold usize_sub. destruct (N.leb_spec b a); [reflexivity | lia].
Qed.

Lemma usize_sub_wrap_ge : forall a b, a < b -> b < usize_modulus ->
  exists n, usize_sub Wrapping a b = Some n /\ a <= n.
Proof.
  intros a b H Hb. unfold usize_sub. destruct (N.leb_spec b a); [lia|].
  eexists. split; [reflexivity|].
  rewrite <- (Z.mod_add (Z.of_N a - Z.of_N b) 1 (Z.of_N usize_modulus)) by lia.
  rewrite Z.mod_small by lia. lia.
Qed.

(** * Claims *)

(** ** Suffix pass *)

(** C2: among gender-compatible matching suffix rules, one whose longest
    matching test has more characters than another's is preferred to it in
    every table order: the shorter one is never selected, and when the two
    are the only candidates the longer one is. *)
Theorem find_suffix_longest_wins : forall sfx name g r1 r2,
  In r1 sfx -> In r2 sfx ->
  suffix_candidate r1 name g = true -> suffix_candidate r2 name g = true ->
  (longest_match_chars r2 name < longest_match_chars r1 name)%nat ->
  find_suffix sfx name g <> Some r2 /\
  ((forall r, In r sfx -> suffix_candidate r name g = true -> r = r1 \/ r = r2) ->
   find_suffix sfx name g = Some r1).
Proof.
  intros sfx name g r1 r2 In1 In2 C1 C2 Hlt.
  pose proof (key_lt_of_chars_lt r2 r1 name (candidate_suffix_matches _ _ _ C2)
                (candidate_suffix_matches _ _ _ C1) Hlt) as Hk.
  assert (In r1 (filter (fun r => suffix_candidate r name g) sfx)) as F1
    by (apply filter_In; auto).
  destruct (find_suffix sfx name g) as [x|] eqn:E.
  2:{ unfold find_suffix in E. apply max_by_key_none in E. rewrite E in F1. contradiction. }
  assert (longest_match_key r1 name <= longest_match_key x name) as Hx
    by (apply (max_by_key_ge _ _ x E r1 F1)).
  assert (x <> r2) as Hne by (intros ->; lia).
  split.
  - intros H. injection H as H. contradiction.
  - intros Honly. destruct (find_suffix_in sfx name g x E) as [Hin Hc].
    destruct (Honly x Hin Hc) as [->| ->]; [reflexivity | contradiction].
Qed.

(** C3 (amended): when candidates tie on the greatest character length of
    their longest matching test, the one that comes last in table order is
    selected ([Iterator::max_by_key] keeps the last maximum). *)
Theorem find_suffix_tie_last : forall l1 r l2 name g,
  suffix_candidate r name g = true ->
  (forall r', In r' l1 -> suffix_candidate r' name g = true ->
     (longest_match_chars r' name <= longest_match_chars r name)%nat) ->
  (forall r', In r' l2 -> suffix_candidate r' name g = true ->
     (longest_match_chars r' name < longest_match_chars r name)%nat) ->
  find_suffix (l1 ++ r :: l2) name g = Some r.
Proof.
  intros l1 r l2 name g Hr H1 H2. unfold find_suffix.
  rewrite filter_app. simpl. rewrite Hr.
  apply max_by_key_last.
  - intros y Hy. apply filter_In in Hy as [Hy Hc].
    apply key_le_of_chars_le; eauto using candidate_suffix_matches.
  - intros y Hy. apply filter_In in Hy as [Hy Hc].
    apply key_lt_of_chars_lt; eauto using candidate_suffix_matches.
Qed.

(** ** Exception pass *)

(** C4: the exception pass is the first rule in table order that matches
    the lowercased fragment exactly, is gender compatible, and is not a
    [FirstWord] rule facing the last part; the part's rule is that one, or
    else the suffix pass's; and the suffix pass does not look at tags. *)
Theorem exception_pass_reference :
  (forall exs name g is_last,
     find_exception exs name g is_last = spec_exception_pass exs name g is_last) /\
  (forall lower mode g name c rl is_last,
     inflect_name_part lower mode g name c rl is_last =
     match option_or (spec_exception_pass (exceptions rl) (lower name) g is_last)
                     (find_suffix (suffixes rl) (lower name) g) with
     | Some r => out <- inflect mode name r c ;; ret (Some out)
     | None => ret None
     end) /\
  (forall sfx name g ts,
     find_suffix (map (set_tags ts) sfx) name g = option_map (set_tags ts) (find_suffix sfx name g)).
Proof.
  assert (forall exs name g is_last,
            find_exception exs name g is_last = spec_exception_pass exs name g is_last) as Hex.
  { intros exs name g is_last. unfold find_exception.
    induction exs as [|r rs IH]; simpl; [reflexivity|].
    rewrite IH, exception_matches_reference. reflexivity. }
  split; [exact Hex|]. split.
  - intros lower mode g name c rl is_last. unfold inflect_name_part. rewrite Hex. reflexivity.
  - intros sfx name g ts. unfold find_suffix. rewrite filter_map_set_tags.
    apply max_by_key_map. intros r. reflexivity.
Qed.

(** ** Gender compatibility *)

(** C9: a rule is gender compatible exactly when its gender is the requested
    one or Androgynous; an Androgynous rule matches every request as it
    matches Androgynous; a Male or Female rule never matches Androgynous. *)
Theorem gender_wildcard :
  (forall r g, gender_matches r g = true <-> gender r = g \/ gender r = Androgynous) /\
  (forall ts ms tg name g is_last,
     let r := {| gender := Androgynous; test := ts; mods := ms; tags := tg |} in
     gender_matches r g = true /\
     exception_matches r name g is_last = exception_matches r name Androgynous is_last /\
     suffix_candidate r name g = suffix_candidate r name Androgynous) /\
  (forall ts ms tg,
     gender_matches {| gender := Male; test := ts; mods := ms; tags := tg |} Androgynous = false /\
     gender_matches {| gender := Female; test := ts; mods := ms; tags := tg |} Androgynous = false).
Proof.
  split; [|split].
  - intros r g. unfold gender_matches. rewrite orb_true_iff.
    destruct (gender r), g; simpl; intuition congruence.
  - intros ts ms tg name g is_last r. subst r.
    unfold exception_matches, suffix_candidate, gender_matches; simpl.
    rewrite !orb_true_r. auto.
  - intros ts ms tg. split; reflexivity.
Qed.

(** ** Splitter *)

(** C1: a part that no exception rule and no suffix rule applies to is
    passed through unchanged, without a panic, at its position among the
    parts; a name all of whose parts are unmatched is returned unchanged by
    [firstname], [lastname] and [middlename]. *)
Theorem unmatched_part_passes_through :
  (forall lower mode g name c rl i part,
     nth_error (split hyphen name) i = Some part ->
     no_rule_applies rl (lower part) g (Nat.eqb i (length (split hyphen name) - 1)) ->
     inflect_name_part lower mode g part c rl (Nat.eqb i (length (split hyphen name) - 1))
       = ret None /\
     (forall outs, inflect_name_parts lower mode g name c rl = Some outs ->
        nth_error outs i = Some part)) /\
  (forall lower mode RULES g name c,
     (forall i part, nth_error (split hyphen name) i = Some part ->
        no_rule_applies (rules_firstname RULES) (lower part) g
          (Nat.eqb i (length (split hyphen name) - 1))) ->
     firstname lower mode RULES g name c = Some name) /\
  (forall lower mode RULES g name c,
     (forall i part, nth_error (split hyphen name) i = Some part ->
        no_rule_applies (rules_lastname RULES) (lower part) g
          (Nat.eqb i (length (split hyphen name) - 1))) ->
     lastname lower mode RULES g name c = Some name) /\
  (forall lower mode RULES g name c,
     (forall i part, nth_error (split hyphen name) i = Some part ->
        no_rule_applies (rules_middlename RULES) (lower part) g
          (Nat.eqb i (length (split hyphen name) - 1))) ->
     middlename lower mode RULES g name c = Some name).
Proof.
  split; [|split; [|split]];
    [| intros; apply inflect_name_all_unmatched; assumption ..].
  intros lower mode g name c rl i part Hi Hno.
  pose proof (inflect_name_part_unmatched lower mode g part c rl _ Hno) as Hp.
  split; [exact Hp|].
  intros outs Ho. unfold inflect_name_parts in Ho.
  pose proof (nth_error_combine_seq _ 0 i part Hi) as Hc.
  destruct (traverse_nth _ _ _ _ _ Ho Hc) as [y [Hy Hn]].
  simpl in Hy. rewrite Hp in Hy. simpl in Hy. injection Hy as <-. exact Hn.
Qed.

(** C8 (amended): a name with k hyphens is split into k+1 parts and the
    output is the k+1 processed parts joined by hyphens; when no modifier of
    the rule list appends a hyphen, the output has exactly k hyphens; a
    hyphen-free name that no rule applies to is returned unchanged. *)
Theorem hyphen_count_amended :
  (forall name, length (split hyphen name) = S (count_char hyphen name)) /\
  (forall lower mode g name c rl outs,
     inflect_name_parts lower mode g name c rl = Some outs ->
     length outs = length (split hyphen name) /\
     inflect_name lower mode g name c rl = Some (join [hyphen] outs)) /\
  (forall lower mode g name c rl out,
     appends_no_hyphen rl -> inflect_name lower mode g name c rl = Some out ->
     count_char hyphen out = count_char hyphen name) /\
  (forall lower mode g name c rl,
     count_char hyphen name = 0%nat -> no_rule_applies rl (lower name) g true ->
     inflect_name lower mode g name c rl = Some name).
Proof.
  split; [intros; apply split_length|]. split; [|split].
  - intros lower mode g name c rl outs Ho. split.
    + unfold inflect_name_parts in Ho. rewrite (traverse_length _ _ _ Ho).
      rewrite length_combine, length_seq, Nat.min_id. reflexivity.
    + unfold inflect_name. rewrite Ho. reflexivity.
  - intros lower mode g name c rl out Hnh Hout. unfold inflect_name in Hout.
    destruct (inflect_name_parts lower mode g name c rl) as [outs|] eqn:Ho;
      simpl in Hout; [|discriminate].
    injection Hout as <-.
    assert (length outs = length (split hyphen name)) as Hlen.
    { unfold inflect_name_parts in Ho. rewrite (traverse_length _ _ _ Ho).
      rewrite length_combine, length_seq, Nat.min_id. reflexivity. }
    rewrite count_char_join.
    + rewrite Hlen, split_length. lia.
    + intros Hnil. subst outs. rewrite split_length in Hlen. discriminate.
    + intros o Hin. unfold inflect_name_parts in Ho.
      destruct (traverse_in _ _ _ _ Ho Hin) as [[i part] [Hx Hf]].
      apply (in_combine_seq _ 0) in Hx as [_ Hn]. rewrite Nat.sub_0_r in Hn.
      pose proof (split_parts_no_sep hyphen name part (nth_error_In _ _ Hn)) as Hpart.
      simpl in Hf.
      destruct (inflect_name_part lower mode g part c rl _) as [[o'|]|] eqn:Ep;
        simpl in Hf; try discriminate; injection Hf as <-; [|exact Hpart].
      destruct (inflect_name_part_rule _ _ _ _ _ _ _ _ Ep) as [r [Hr Hi]].
      destruct (inflect_shape _ _ _ _ _ Hi) as [->|[k [post [n [Hm ->]]]]]; [exact Hpart|].
      rewrite count_char_app, (Hnh r c k post Hr Hm).
      pose proof (count_char_take hyphen n part). lia.
  - intros lower mode g name c rl H0 Hno. apply inflect_name_all_unmatched.
    rewrite (split_no_hyphen name H0). intros [|[|i]] part Hi; simpl in Hi; try discriminate.
    injection Hi as <-. exact Hno.
Qed.

(** C10: when every test string of the table is non-empty (and lowercasing
    keeps the empty string empty), the empty name is returned unchanged. *)
Theorem empty_name_unchanged : forall lower mode RULES g c,
  lower [] = [] -> tests_nonempty RULES ->
  firstname lower mode RULES g [] c = Some [] /\
  lastname lower mode RULES g [] c = Some [] /\
  middlename lower mode RULES g [] c = Some [].
Proof.
  intros lower mode RULES g c Hl Ht.
  assert (forall rl, (forall r t, (In r (exceptions rl) \/ In r (suffixes rl)) ->
                        In t (test r) -> t <> []) ->
          inflect_name lower mode g [] c rl = Some []) as Hrl.
  { intros rl Hne. apply inflect_name_all_unmatched. simpl.
    intros [|[|i]] part Hi; simpl in Hi; try discriminate.
    injection Hi as <-. apply empty_name_unmatched; assumption. }
  split; [|split]; apply Hrl; intros r t Hr Htin;
    [ apply (Ht _ r t (or_intror (or_introl eq_refl)))
    | apply (Ht _ r t (or_introl eq_refl))
    | apply (Ht _ r t (or_intror (or_intror eq_refl))) ]; assumption.
Qed.

(** ** Inflector *)

(** C7 (amended): an identity modifier returns the fragment; a modifier
    [(trimCount, suffix)] with [trimCount] at most the code-point count
    removes the last [trimCount] code points of the original fragment and
    appends the suffix; no clamp is applied to a larger [trimCount]: the
    [usize] subtraction underflows, which panics when overflow checks are on
    and otherwise wraps so that the whole fragment is kept and the suffix
    appended. *)
Theorem inflect_amended :
  (forall mode name r c, modifier r c = None -> inflect mode name r c = Some name) /\
  (forall mode name r c skip post,
     modifier r c = Some (skip, post) -> skip <= char_count name ->
     inflect mode name r c = Some (firstn (length name - N.to_nat skip) name ++ post)) /\
  (forall name r c skip post,
     modifier r c = Some (skip, post) -> char_count name < skip -> skip < usize_modulus ->
     inflect Checked name r c = None /\ inflect Wrapping name r c = Some (name ++ post)).
Proof.
  split; [|split].
  - intros mode name r c H. unfold inflect. rewrite H. reflexivity.
  - intros mode name r c skip post H Hle. unfold inflect. rewrite H.
    rewrite (usize_sub_le mode _ _ Hle). simpl. rewrite take_firstn.
    unfold char_count in *.
    replace (N.to_nat (N.of_nat (length name) - skip)) with (length name - N.to_nat skip)%nat by lia.
    reflexivity.
  - intros name r c skip post H Hlt Hm. unfold inflect. rewrite H. split.
    + unfold usize_sub. destruct (N.leb_spec skip (char_count name)); [lia | reflexivity].
    + destruct (usize_sub_wrap_ge _ _ Hlt Hm) as [n [Hn Hge]]. rewrite Hn. simpl.
      rewrite take_firstn, firstn_all2; [reflexivity|].
      unfold char_count in Hge. lia.
Qed.

(** ** Gender heuristic *)

(** C5: [detect_gender] consults middlename, then firstname, then lastname;
    the first provided part whose heuristic answers Male or Female decides,
    absent parts and parts without an answer are skipped, and with no answer
    the result is Androgynous.  A heuristic never answers Androgynous. *)
Theorem detect_gender_cascade :
  (forall h name, gender.GenderHeuristic.detect_gender h name <> Some Androgynous) /\
  (forall lower GENDER ln fn mn,
     gender.detect_gender lower GENDER ln fn mn =
     first_definite lower [(gender.middlename GENDER, mn);
                           (gender.firstname GENDER, fn);
                           (gender.lastname GENDER, ln)]).
Proof.
  assert (forall h name, gender.GenderHeuristic.detect_gender h name <> Some Androgynous) as Hna.
  { intros h name. unfold gender.GenderHeuristic.detect_gender,
      gender.GenderHeuristic.by_exception, gender.GenderHeuristic.by_suffix.
    destruct (gender.exceptions h);
      repeat match goal with |- context [if ?b then _ else _] => destruct b end;
      discriminate. }
  split; [exact Hna|].
  intros lower GENDER ln fn mn. unfold gender.detect_gender, first_definite.
  destruct mn as [m|]; simpl;
    [destruct (gender.GenderHeuristic.detect_gender (gender.middlename GENDER) (lower m))
       as [[]|] eqn:E1; [reflexivity | reflexivity | exfalso; exact (Hna _ _ E1) |] |];
  (destruct fn as [f|]; simpl;
    [destruct (gender.GenderHeuristic.detect_gender (gender.firstname GENDER) (lower f))
       as [[]|] eqn:E2; [reflexivity | reflexivity | exfalso; exact (Hna _ _ E2) |] |]);
  (destruct ln as [l|]; simpl;
    [destruct (gender.GenderHeuristic.detect_gender (gender.lastname GENDER) (lower l))
       as [[]|] eqn:E3; [reflexivity | reflexivity | exfalso; exact (Hna _ _ E3) | reflexivity] |
     reflexivity]).
Qed.

(** C6 (amended): a value in the androgynous exceptions yields no answer at
    the exception level, and the part's suffix sets are then consulted
    exactly as for a heuristic without exceptions. *)
Theorem androgynous_exception_consults_suffixes : forall h m name,
  gender.exceptions h = Some m ->
  gender.GenderHeuristic.find_exception name (gender.androgynous m) = true ->
  gender.GenderHeuristic.detect_gender h name =
    gender.GenderHeuristic.by_suffix name (gender.suffixes h) /\
  gender.GenderHeuristic.detect_gender h name =
    gender.GenderHeuristic.detect_gender
      {| gender.exceptions := None; gender.suffixes := gender.suffixes h |} name.
Proof.
  intros h m name Hm Ha. unfold gender.GenderHeuristic.detect_gender.
  rewrite Hm. unfold gender.GenderHeuristic.by_exception. rewrite Ha. simpl. auto.
Qed.

(** * Further properties of the code *)

(** ** Helper lemmas *)

Lemma find_app : forall {A} (f : A -> bool) l1 l2,
  find f (l1 ++ l2) = option_or (find f l1) (find f l2).
Proof.
  intros A f l1 l2. induction l1 as [|x xs IH]; simpl; [reflexivity|].
  destruct (f x); [reflexivity | exact IH].
Qed.

Lemma find_map : forall {A} (f : A -> bool) (h : A -> A) l,
  (forall x, f (h x) = f x) -> find f (map h l) = option_map h (find f l).
Proof.
  intros A f h l H. induction l as [|x xs IH]; simpl; [reflexivity|].
  rewrite H. destruct (f x); [reflexivity | exact IH].
Qed.

Lemma find_filter : forall {A} (f p : A -> bool) l,
  (forall x, f x = true -> p x = true) -> find f (filter p l) = find f l.
Proof.
  intros A f p l H. induction l as [|x xs IH]; simpl; [reflexivity|].
  destruct (f x) eqn:Ef.
  - rewrite (H x Ef). simpl. rewrite Ef. reflexivity.
  - destruct (p x); simpl; [rewrite Ef|]; exact IH.
Qed.

Section MaxByKeyApp.

Context {A : Type} (f : A -> N).

Let step := fun acc y => if f acc <=? f y then y else acc.

Lemma step_assoc : forall a b c, step (step a b) c = step a (step b c).
Proof.
  intros a b c. unfold step.
  destruct (N.leb_spec (f a) (f b)), (N.leb_spec (f b) (f c));
    repeat match goal with |- context [f ?x <=? f ?y] => destruct (N.leb_spec (f x) (f y)) end;
    try reflexivity; lia.
Qed.

Lemma fold_step_shift : forall ys a y, fold_left step ys (step a y) = step a (fold_left step ys y).
Proof.
  induction ys as [|z zs IH]; intros a y; simpl; [reflexivity|].
  rewrite step_assoc. apply IH.
Qed.

(** [max_by_key] over a concatenation is the right-biased maximum of the two
    halves' results. *)
Lemma max_by_key_app : forall l1 l2,
  max_by_key f (l1 ++ l2) =
  match max_by_key f l1, max_by_key f l2 with
  | Some a, Some b => if f a <=? f b then Some b else Some a
  | Some a, None => Some a
  | None, o => o
  end.
Proof.
  intros [|x xs] [|y ys]; simpl; try reflexivity.
  - rewrite app_nil_r. reflexivity.
  - rewrite fold_left_app. simpl.
    change (Some (fold_left step ys (step (fold_left step xs x) y)) =
            (if f (fold_left step xs x) <=? f (fold_left step ys y)
             then Some (fold_left step ys y) else Some (fold_left step xs x))).
    rewrite fold_step_shift. unfold step at 1.
    destruct (f (fold_left step xs x) <=? f (fold_left step ys y)); reflexivity.
Qed.

End MaxByKeyApp.

Lemma gender_matches_iff : forall r g,
  gender_matches r g = true <-> gender r = g \/ gender r = Androgynous.
Proof.
  intros r g. unfold gender_matches. rewrite orb_true_iff.
  destruct (gender r), g; simpl; intuition congruence.
Qed.

Lemma chars_leb_key_leb : forall a b name,
  suffix_matches a name = true -> suffix_matches b name = true ->
  (longest_match_key a name <=? longest_match_key b name) =
  Nat.leb (longest_match_chars a name) (longest_match_chars b name).
Proof.
  intros a b name Ha Hb.
  destruct (Nat.leb_spec (longest_match_chars a name) (longest_match_chars b name)) as [H|H].
  - apply N.leb_le. apply key_le_of_chars_le; assumption.
  - apply N.leb_gt. apply key_lt_of_chars_lt; assumption.
Qed.

(** ** Matcher *)

(** X1: the exception pass over a concatenated list is the pass over the
    first half, or else over the second. *)
Theorem find_exception_app : forall l1 l2 name g is_last,
  find_exception (l1 ++ l2) name g is_last =
  option_or (find_exception l1 name g is_last) (find_exception l2 name g is_last).
Proof. intros. unfold find_exception. apply find_app. Qed.

(** X2: the suffix pass over a concatenated list picks, from the two
    halves' picks, the one with the longer longest match, the second half's
    on a tie. *)
Theorem find_suffix_app : forall l1 l2 name g,
  find_suffix (l1 ++ l2) name g =
  match find_suffix l1 name g, find_suffix l2 name g with
  | Some a, Some b =>
      if Nat.leb (longest_match_chars a name) (longest_match_chars b name)
      then Some b else Some a
  | Some a, None => Some a
  | None, o => o
  end.
Proof.
  intros l1 l2 name g. unfold find_suffix at 1. rewrite filter_app, max_by_key_app.
  change (max_by_key (fun r => longest_match_key r name)
            (filter (fun r => suffix_candidate r name g) l1)) with (find_suffix l1 name g).
  change (max_by_key (fun r => longest_match_key r name)
            (filter (fun r => suffix_candidate r name g) l2)) with (find_suffix l2 name g).
  destruct (find_suffix l1 name g) as [a|] eqn:E1; [|reflexivity].
  destruct (find_suffix l2 name g) as [b|] eqn:E2; [|reflexivity].
  apply find_suffix_in in E1 as [_ Ca]. apply find_suffix_in in E2 as [_ Cb].
  rewrite chars_leb_key_leb by eauto using candidate_suffix_matches. reflexivity.
Qed.

(** X3: the suffix pass finds nothing exactly when no rule of the list is a
    gender-compatible suffix match; what it finds is such a rule of the
    list, and no candidate has a longer longest match. *)
Theorem find_suffix_spec : forall sfx name g,
  (find_suffix sfx name g = None <-> forall r, In r sfx -> suffix_candidate r name g = false) /\
  (forall r, find_suffix sfx name g = Some r ->
     In r sfx /\ suffix_candidate r name g = true /\
     forall r', In r' sfx -> suffix_candidate r' name g = true ->
       (longest_match_chars r' name <= longest_match_chars r name)%nat).
Proof.
  intros sfx name g. split; [split|].
  - intros H r Hr. unfold find_suffix in H. apply max_by_key_none in H.
    destruct (suffix_candidate r name g) eqn:Ec; [|reflexivity].
    assert (In r (filter (fun r => suffix_candidate r name g) sfx)) as Hin
      by (apply filter_In; auto).
    rewrite H in Hin. contradiction.
  - intros H. unfold find_suffix. rewrite (filter_all_false _ _ H). reflexivity.
  - intros r H. destruct (find_suffix_in _ _ _ _ H) as [Hin Hc].
    split; [exact Hin|]. split; [exact Hc|].
    intros r' Hr' Hc'.
    destruct (Nat.le_gt_cases (longest_match_chars r' name) (longest_match_chars r name))
      as [Hle|Hgt]; [exact Hle|].
    pose proof (key_lt_of_chars_lt r r' name (candidate_suffix_matches _ _ _ Hc)
                  (candidate_suffix_matches _ _ _ Hc') Hgt).
    assert (In r' (filter (fun r => suffix_candidate r name g) sfx)) as F
      by (apply filter_In; auto).
    pose proof (max_by_key_ge _ _ _ H r' F). lia.
Qed.

(** X4: the rule either pass selects has the requested gender or is
    Androgynous; in particular an Androgynous request only ever selects
    Androgynous rules. *)
Theorem selected_rule_gender : forall exs sfx name g is_last r,
  find_exception exs name g is_last = Some r \/ find_suffix sfx name g = Some r ->
  gender r = g \/ gender r = Androgynous.
Proof.
  intros exs sfx name g is_last r [H|H].
  - apply find_some in H as [_ H]. unfold exception_matches in H.
    apply andb_prop in H as [H _]. apply andb_prop in H as [_ H].
    apply gender_matches_iff. exact H.
  - apply find_suffix_in in H as [_ H]. apply andb_prop in H as [_ H].
    apply gender_matches_iff. exact H.
Qed.

(** ** Inflector and splitter *)

Lemma split_app_sep : forall sep a b, count_char sep a = 0%nat ->
  split sep (a ++ sep :: b) = a :: split sep b.
Proof.
  intros sep a b. induction a as [|x xs IH]; intros H; simpl.
  - rewrite N.eqb_refl. reflexivity.
  - simpl in H. destruct (N.eqb x sep) eqn:E; [discriminate|].
    rewrite IH by exact H. reflexivity.
Qed.

Lemma traverse_combine_shift : forall {A B} (f1 f2 : nat * A -> M B) l k n,
  (forall i x, f1 (S i, x) = f2 (i, x)) ->
  traverse f1 (combine (seq (S k) n) l) = traverse f2 (combine (seq k n) l).
Proof.
  intros A B f1 f2 l. induction l as [|x xs IH]; intros k [|n] H; simpl; try reflexivity.
  rewrite H, IH by exact H. reflexivity.
Qed.

Lemma set_tags_exception_not_last : forall ts r name g,
  exception_matches (set_tags ts r) name g false = exception_matches r name g false.
Proof.
  intros. unfold exception_matches, fully_matches, gender_matches. simpl.
  rewrite !orb_true_r. reflexivity.
Qed.

Lemma exception_last_no_firstword : forall r name g,
  exception_matches r name g true = true -> negb (has_tag r FirstWord) = true.
Proof.
  intros r name g H. unfold exception_matches in H.
  apply andb_prop in H as [_ H]. rewrite orb_false_r in H. exact H.
Qed.

(** X5: a rule of the exception pass wins over every suffix rule: once the
    exception pass selects [r], the part is inflected by [r] whatever the
    suffix list holds. *)
Theorem exception_precedence : forall lower mode g name c rl is_last r,
  find_exception (exceptions rl) (lower name) g is_last = Some r ->
  forall sfx',
  inflect_name_part lower mode g name c rl is_last = (out <- inflect mode name r c ;; ret (Some out)) /\
  inflect_name_part lower mode g name c {| exceptions := exceptions rl; suffixes := sfx' |} is_last =
    (out <- inflect mode name r c ;; ret (Some out)).
Proof.
  intros lower mode g name c rl is_last r H sfx'.
  unfold inflect_name_part. simpl. rewrite H. split; reflexivity.
Qed.

(** X6: on the last part of a name the exception rules tagged [FirstWord]
    are never used: dropping them from the table changes nothing. *)
Theorem last_part_ignores_firstword : forall lower mode g name c rl,
  inflect_name_part lower mode g name c rl true =
  inflect_name_part lower mode g name c (drop_firstword rl) true.
Proof.
  intros. unfold inflect_name_part, drop_firstword, find_exception. simpl.
  rewrite find_filter; [reflexivity|].
  intros x Hx. exact (exception_last_no_firstword _ _ _ Hx).
Qed.

(** X7: on a part that is not the last the rules' tags are never read:
    erasing every tag of the table changes nothing. *)
Theorem non_last_part_ignores_tags : forall lower mode g name c rl,
  inflect_name_part lower mode g name c rl false =
  inflect_name_part lower mode g name c (strip_tags rl) false.
Proof.
  intros. unfold inflect_name_part, strip_tags, find_exception, find_suffix. simpl.
  rewrite find_map by (intros; apply set_tags_exception_not_last).
  rewrite filter_map_set_tags, max_by_key_map by reflexivity.
  destruct (find _ (exceptions rl)) as [r|]; simpl; [reflexivity|].
  destruct (max_by_key _ _) as [r|]; reflexivity.
Qed.

Lemma inflect_name_parts_cons : forall lower mode g a b c rl,
  count_char hyphen a = 0%nat ->
  inflect_name_parts lower mode g (a ++ hyphen :: b) c rl =
  (o <- inflect_name_part lower mode g a c rl false ;;
   rest <- inflect_name_parts lower mode g b c rl ;;
   ret (unwrap_or o a :: rest)).
Proof.
  intros lower mode g a b c rl H. unfold inflect_name_parts.
  rewrite split_app_sep by exact H.
  cbn [length]. rewrite split_length.
  replace (S (S (count_char hyphen b)) - 1)%nat with (S (count_char hyphen b)) by lia.
  replace (S (count_char hyphen b) - 1)%nat with (count_char hyphen b) by lia.
  rewrite <- (cons_seq (S (count_char hyphen b)) 0).
  cbn [combine traverse].
  erewrite traverse_combine_shift.
  - simpl Nat.eqb. destruct (inflect_name_part lower mode g a c rl false); reflexivity.
  - intros i x. reflexivity.
Qed.

Lemma inflect_name_parts_single : forall lower mode g name c rl,
  count_char hyphen name = 0%nat ->
  inflect_name_parts lower mode g name c rl =
  (o <- inflect_name_part lower mode g name c rl true ;; ret [unwrap_or o name]).
Proof.
  intros lower mode g name c rl H. unfold inflect_name_parts.
  rewrite split_no_hyphen by exact H. simpl.
  destruct (inflect_name_part lower mode g name c rl true); reflexivity.
Qed.

(** X8: the splitter composes: a hyphen-free leading part is inflected as a
    part that is not the last, the rest of the name is inflected on its own,
    and the two are joined back with a hyphen. *)
Theorem inflect_name_cons : forall lower mode g a b c rl,
  count_char hyphen a = 0%nat ->
  inflect_name lower mode g (a ++ hyphen :: b) c rl =
  (o <- inflect_name_part lower mode g a c rl false ;;
   rest <- inflect_name lower mode g b c rl ;;
   ret (unwrap_or o a ++ hyphen :: rest)).
Proof.
  intros lower mode g a b c rl H. unfold inflect_name.
  rewrite inflect_name_parts_cons by exact H.
  destruct (inflect_name_part lower mode g a c rl false) as [o|]; [|reflexivity]. simpl.
  destruct (inflect_name_parts lower mode g b c rl) as [parts|] eqn:E; [|reflexivity]. simpl.
  unfold inflect_name_parts in E.
  apply traverse_length in E. rewrite length_combine, length_seq, Nat.min_id, split_length in E.
  destruct parts as [|p ps]; [discriminate|]. reflexivity.
Qed.

(** X9: a name without hyphens is inflected as one part, the last one. *)
Theorem inflect_name_single : forall lower mode g name c rl,
  count_char hyphen name = 0%nat ->
  inflect_name lower mode g name c rl =
  (o <- inflect_name_part lower mode g name c rl true ;; ret (unwrap_or o name)).
Proof.
  intros lower mode g name c rl H. unfold inflect_name.
  rewrite inflect_name_parts_single by exact H.
  destruct (inflect_name_part lower mode g name c rl true); reflexivity.
Qed.

(** X10: the [FirstWord] exceptions never affect a hyphen-free name. *)
Theorem single_name_ignores_firstword : forall lower mode g name c rl,
  count_char hyphen name = 0%nat ->
  inflect_name lower mode g name c rl = inflect_name lower mode g name c (drop_firstword rl).
Proof.
  intros lower mode g name c rl H. rewrite !inflect_name_single by exact H.
  unfold inflect_name_part, drop_firstword, find_exception. simpl.
  rewrite find_filter; [reflexivity|].
  intros x Hx. exact (exception_last_no_firstword _ _ _ Hx).
Qed.

(** ** Overflow behaviour *)


Lemma traverse_mono : forall {A B} (f1 f2 : A -> M B) l ys,
  (forall x y, f1 x = Some y -> f2 x = Some y) ->
  traverse f1 l = Some ys -> traverse f2 l = Some ys.
Proof.
  intros A B f1 f2 l. induction l as [|x xs IH]; intros ys H Ht; simpl in *; [exact Ht|].
  destruct (f1 x) as [y|] eqn:E1; [|discriminate]. rewrite (H _ _ E1). simpl in *.
  destruct (traverse f1 xs) as [zs|] eqn:E2; [|discriminate].
  rewrite (IH zs H eq_refl). exact Ht.
Qed.


Lemma inflect_checked_wrapping : forall name r c out,
  inflect Checked name r c = Some out -> inflect Wrapping name r c = Some out.
Proof.
  intros name r c out. unfold inflect, usize_sub.
  destruct (modifier r c) as [[k post]|]; [|tauto].
  destruct (k <=? char_count name); [tauto | discriminate].
Qed.

Lemma inflect_name_part_checked_wrapping : forall lower g name c rl is_last o,
  inflect_name_part lower Checked g name c rl is_last = Some o ->
  inflect_name_part lower Wrapping g name c rl is_last = Some o.
Proof.
  intros lower g name c rl is_last o. unfold inflect_name_part.
  destruct (option_or _ _) as [r|]; [|tauto].
  destruct (inflect Checked name r c) as [x|] eqn:E; [|discriminate].
  rewrite (inflect_checked_wrapping _ _ _ _ E). tauto.
Qed.


(** X12: with overflow checks on, a name that is inflected without a panic
    gets the same result as without overflow checks. *)
Theorem inflect_name_checked_wrapping : forall lower g name c rl out,
  inflect_name lower Checked g name c rl = Some out ->
  inflect_name lower Wrapping g name c rl = Some out.
Proof.
  intros lower g name c rl out. unfold inflect_name, inflect_name_parts.
  destruct (traverse _ (combine _ (split hyphen name))) as [parts|] eqn:E; [|discriminate].
  intro H. erewrite traverse_mono; [exact H | | exact E].
  intros [i p] y. simpl.
  destruct (inflect_name_part lower Checked g p c rl _) as [o|] eqn:E1; [|discriminate].
  rewrite (inflect_name_part_checked_wrapping _ _ _ _ _ _ _ E1). tauto.
Qed.

(** ** Gender heuristic *)

(** X13: an exception list decides before the suffix lists: a name not
    listed as androgynous but listed as female is Female, and one listed as
    male only is Male, whatever its suffixes. *)
Theorem heuristic_exception_overrides : forall self name mapping,
  gender.exceptions self = Some mapping ->
  gender.GenderHeuristic.find_exception name (gender.androgynous mapping) = false ->
  (gender.GenderHeuristic.find_exception name (gender.female mapping) = true ->
   gender.GenderHeuristic.detect_gender self name = Some Female) /\
  (gender.GenderHeuristic.find_exception name (gender.female mapping) = false ->
   gender.GenderHeuristic.find_exception name (gender.male mapping) = true ->
   gender.GenderHeuristic.detect_gender self name = Some Male).
Proof.
  intros self name mapping He Ha. unfold gender.GenderHeuristic.detect_gender,
    gender.GenderHeuristic.by_exception. rewrite He, Ha.
  split; intros Hf; rewrite Hf; [reflexivity|]. intros Hm. rewrite Hm. reflexivity.
Qed.

(** X14: when no exception list decides, a name ending in an androgynous
    suffix gets no answer from the heuristic, even if it also ends in a
    female or male suffix. *)
Theorem heuristic_androgynous_suffix_blocks : forall self name,
  match gender.exceptions self with
  | Some mapping => gender.GenderHeuristic.by_exception name mapping
  | None => None
  end = None ->
  gender.GenderHeuristic.find_suffix name (gender.androgynous (gender.suffixes self)) = true ->
  gender.GenderHeuristic.detect_gender self name = None.
Proof.
  intros self name He Ha. unfold gender.GenderHeuristic.detect_gender.
  rewrite He. unfold gender.GenderHeuristic.by_suffix. rewrite Ha. reflexivity.
Qed.

(** ** Deprecated API *)

(** X15: the deprecated [Petrovich::detect_gender] agrees with
    [detect_gender] called with any first and last names whenever the
    middle-name heuristic decides. *)
Theorem deprecated_detect_gender_agrees : forall lower GENDER m ln fn,
  gender.GenderHeuristic.detect_gender (gender.middlename GENDER) (lower m) <> None ->
  Petrovich.detect_gender lower GENDER m = gender.detect_gender lower GENDER ln fn (Some m).
Proof.
  intros lower GENDER m ln fn H. unfold Petrovich.detect_gender, gender.detect_gender.
  simpl. destruct (gender.GenderHeuristic.detect_gender _ (lower m)); [reflexivity|].
  contradiction.
Qed.

(** X16: when the middle-name heuristic does not decide, the deprecated
    [Petrovich::detect_gender] answers Androgynous; it never consults the
    first-name or last-name heuristics. *)
Theorem deprecated_detect_gender_inconclusive : forall lower GENDER m,
  gender.GenderHeuristic.detect_gender (gender.middlename GENDER) (lower m) = None ->
  Petrovich.detect_gender lower GENDER m = Androgynous.
Proof.
  intros lower GENDER m H. unfold Petrovich.detect_gender, gender.detect_gender.
  simpl. rewrite H. reflexivity.
Qed.

(** ** Rule compiler *)

Lemma count_char_repeat_app : forall k e, count_char hyphen e = 0%nat ->
  count_char hyphen (repeat hyphen k ++ e) = k.
Proof.
  intros k e H. induction k as [|k IH]; simpl; [exact H|]. rewrite IH. reflexivity.
Qed.


(** X18: a modifier written as [k] hyphens followed by a hyphen-free ending
    (other than ["."]) is compiled to the pair [(k, ending)]. *)
Theorem parse_modifier_roundtrip : forall k e,
  count_char hyphen e = 0%nat -> repeat hyphen k ++ e <> [46] ->
  parse_modifier (repeat hyphen k ++ e) = Some (N.of_nat k, e).
Proof.
  intros k e H Hd. unfold parse_modifier.
  destruct (str_eqb (repeat hyphen k ++ e) [46]) eqn:E.
  - apply str_eqb_eq in E. contradiction.
  - rewrite (count_char_repeat_app k e H). rewrite skipn_app, repeat_length.
    rewrite Nat.sub_diag. simpl. rewrite skipn_all2 by (rewrite repeat_length; lia).
    reflexivity.
Qed.

(** * Witnesses and counterexamples *)

Lemma unmatched_part_passes_through_witness :
  (forall i part, nth_error (split hyphen (s "Bla-bla")) i = Some part ->
     no_rule_applies (rules_firstname sample_table) (sample_lowercase part) Male
       (Nat.eqb i (length (split hyphen (s "Bla-bla")) - 1))) /\
  firstname sample_lowercase Checked sample_table Male (s "Bla-bla") Genitive = Some (s "Bla-bla").
Proof.
  assert (forall i part, nth_error (split hyphen (s "Bla-bla")) i = Some part ->
     no_rule_applies (rules_firstname sample_table) (sample_lowercase part) Male
       (Nat.eqb i (length (split hyphen (s "Bla-bla")) - 1))) as H.
  { intros [|[|i]] part Hi; simpl in Hi; try (destruct i; discriminate);
      injection Hi as <-; split; intros r Hr; simpl in Hr;
      repeat (destruct Hr as [<-|Hr]; [vm_compute; reflexivity|]); contradiction. }
  split; [exact H|].
  apply (proj1 (proj2 unmatched_part_passes_through)). exact H.
Defined.

Lemma find_suffix_longest_wins_witness :
  In rule_ich [rule_ich; rule_ch] /\ In rule_ch [rule_ich; rule_ch] /\
  suffix_candidate rule_ich [cyr_i; cyr_ch] Male = true /\
  suffix_candidate rule_ch [cyr_i; cyr_ch] Male = true /\
  (longest_match_chars rule_ch [cyr_i; cyr_ch] < longest_match_chars rule_ich [cyr_i; cyr_ch])%nat /\
  find_suffix [rule_ich; rule_ch] [cyr_i; cyr_ch] Male = Some rule_ich.
Proof.
  split; [simpl; auto|]. split; [simpl; auto|].
  split; [vm_compute; reflexivity|]. split; [vm_compute; reflexivity|].
  split; [vm_compute; lia|].
  apply (proj2 (find_suffix_longest_wins [rule_ich; rule_ch] [cyr_i; cyr_ch] Male rule_ich rule_ch
                  ltac:(simpl; auto) ltac:(simpl; auto)
                  ltac:(vm_compute; reflexivity) ltac:(vm_compute; reflexivity)
                  ltac:(vm_compute; lia))).
  intros r Hr _. simpl in Hr. intuition.
Defined.

Lemma find_suffix_tie_last_witness :
  suffix_candidate rule_ch2 [cyr_ch] Male = true /\
  (longest_match_chars rule_ch [cyr_ch] <= longest_match_chars rule_ch2 [cyr_ch])%nat /\
  find_suffix ([rule_ch] ++ rule_ch2 :: []) [cyr_ch] Male = Some rule_ch2.
Proof.
  split; [vm_compute; reflexivity|]. split; [vm_compute; lia|].
  apply find_suffix_tie_last.
  - vm_compute. reflexivity.
  - intros r' Hr _. simpl in Hr. destruct Hr as [<-|[]]. vm_compute. lia.
  - intros r' Hr _. simpl in Hr. contradiction.
Defined.

(** C3: with two rules tying on "ч", the later one is selected, not the
    earlier one. *)
Lemma find_suffix_tie_first_fails :
  find_suffix [rule_ch; rule_ch2] [cyr_ch] Male = Some rule_ch2 /\ rule_ch <> rule_ch2.
Proof.
  split; [vm_compute; reflexivity|].
  unfold rule_ch, rule_ch2, mk_rule, mods_all. intros H. injection H. discriminate.
Qed.

(** C7: a [trimCount] of 2 on the one-character fragment "a" is not
    clamped: it panics with overflow checks, and without them keeps the
    fragment whole ("ax", not "x"). *)
Lemma inflect_no_clamp :
  inflect Checked (s "a") (mk_rule Male [] (Some (2, s "x")) []) Genitive = None /\
  inflect Wrapping (s "a") (mk_rule Male [] (Some (2, s "x")) []) Genitive = Some (s "ax").
Proof. split; vm_compute; reflexivity. Qed.

(** C8: a modifier appending "-" gives a hyphen-free name a hyphen. *)
Lemma hyphen_count_fails :
  inflect_name sample_lowercase Checked Male (s "a") Genitive dash_rules = Some (s "-") /\
  count_char hyphen (s "a") = 0%nat /\ count_char hyphen (s "-") = 1%nat.
Proof. split; [|split]; vm_compute; reflexivity. Qed.

Lemma empty_name_unchanged_witness :
  sample_lowercase [] = [] /\ tests_nonempty sample_table /\
  firstname sample_lowercase Checked sample_table Female [] Dative = Some [] /\
  lastname sample_lowercase Checked sample_table Female [] Dative = Some [] /\
  middlename sample_lowercase Checked sample_table Female [] Dative = Some [].
Proof.
  assert (tests_nonempty sample_table) as Ht.
  { intros rl r t Hrl Hr Htin.
    destruct Hrl as [-> | [-> | ->]]; simpl in Hr;
      destruct Hr as [[<-|[]]|[<-|[<-|[]]]]; simpl in Htin;
      destruct Htin as [<-|[]]; discriminate. }
  split; [reflexivity|]. split; [exact Ht|].
  apply empty_name_unchanged; [reflexivity | exact Ht].
Defined.

(** C6: "Sasha" is an androgynous exception, yet the female suffix "a"
    decides the part. *)
Lemma androgynous_exception_stops_fails :
  gender.GenderHeuristic.detect_gender sample_heuristic (s "sasha") = Some Female /\
  gender.detect_gender sample_lowercase sample_gender None (Some (s "Sasha")) None = Female.
Proof. split; vm_compute; reflexivity. Qed.

Lemma androgynous_exception_consults_suffixes_witness :
  gender.GenderHeuristic.find_exception (s "sasha")
    (gender.androgynous {| gender.androgynous := [s "sasha"]; gender.male := [];
                           gender.female := [] |}) = true /\
  gender.GenderHeuristic.detect_gender sample_heuristic (s "sasha") =
    gender.GenderHeuristic.by_suffix (s "sasha") (gender.suffixes sample_heuristic).
Proof.
  split; [vm_compute; reflexivity|].
  apply (proj1 (androgynous_exception_consults_suffixes sample_heuristic _ (s "sasha")
                  eq_refl ltac:(vm_compute; reflexivity))).
Defined.

Lemma selected_rule_gender_witness :
  find_suffix [rule_ich; rule_ch] [cyr_ch] Male = Some rule_ch /\
  (gender rule_ch = Male \/ gender rule_ch = Androgynous).
Proof.
  split; [vm_compute; reflexivity|].
  apply (selected_rule_gender [] [rule_ich; rule_ch] [cyr_ch] Male false rule_ch).
  right. vm_compute. reflexivity.
Defined.

Lemma exception_precedence_witness :
  find_exception (exceptions sample_rules) (sample_lowercase (s "Bonch")) Male false =
    Some (mk_rule Androgynous [s "bonch"] None [FirstWord]) /\
  inflect_name_part sample_lowercase Checked Male (s "Bonch") Genitive
    {| exceptions := exceptions sample_rules; suffixes := [rule_ch] |} false = Some (Some (s "Bonch")).
Proof.
  split; [vm_compute; reflexivity|].
  rewrite (proj2 (exception_precedence sample_lowercase Checked Male (s "Bonch") Genitive
                    sample_rules false _ ltac:(vm_compute; reflexivity) [rule_ch])).
  vm_compute. reflexivity.
Defined.

Lemma inflect_name_cons_witness :
  count_char hyphen (s "bonch") = 0%nat /\
  inflect_name sample_lowercase Checked Male (s "bonch" ++ hyphen :: [cyr_ch]) Genitive sample_rules =
    Some (s "bonch" ++ hyphen :: [cyr_ch; cyr_a]).
Proof.
  split; [vm_compute; reflexivity|].
  rewrite (inflect_name_cons sample_lowercase Checked Male (s "bonch") [cyr_ch] Genitive sample_rules
             ltac:(vm_compute; reflexivity)).
  vm_compute. reflexivity.
Defined.

Lemma inflect_name_single_witness :
  count_char hyphen [cyr_i; cyr_ch] = 0%nat /\
  inflect_name sample_lowercase Checked Male [cyr_i; cyr_ch] Genitive sample_rules =
    Some [cyr_i; cyr_ch; cyr_e].
Proof.
  split; [vm_compute; reflexivity|].
  rewrite (inflect_name_single sample_lowercase Checked Male [cyr_i; cyr_ch] Genitive sample_rules
             ltac:(vm_compute; reflexivity)).
  vm_compute. reflexivity.
Defined.

Lemma single_name_ignores_firstword_witness :
  count_char hyphen (s "bonch") = 0%nat /\
  inflect_name sample_lowercase Checked Male (s "bonch") Genitive sample_rules =
    inflect_name sample_lowercase Checked Male (s "bonch") Genitive (drop_firstword sample_rules).
Proof.
  split; [vm_compute; reflexivity|].
  apply single_name_ignores_firstword. vm_compute. reflexivity.
Defined.

Lemma inflect_name_checked_wrapping_witness :
  inflect_name sample_lowercase Checked Male [cyr_i; cyr_ch] Genitive sample_rules =
    Some [cyr_i; cyr_ch; cyr_e] /\
  inflect_name sample_lowercase Wrapping Male [cyr_i; cyr_ch] Genitive sample_rules =
    Some [cyr_i; cyr_ch; cyr_e].
Proof.
  split; [vm_compute; reflexivity|].
  apply inflect_name_checked_wrapping. vm_compute. reflexivity.
Defined.

Lemma heuristic_exception_overrides_witness :
  gender.GenderHeuristic.by_suffix (s "lubov") (gender.suffixes exception_heuristic) = Some Male /\
  gender.GenderHeuristic.detect_gender exception_heuristic (s "lubov") = Some Female /\
  gender.GenderHeuristic.by_suffix (s "ilya") (gender.suffixes exception_heuristic) = Some Female /\
  gender.GenderHeuristic.detect_gender exception_heuristic (s "ilya") = Some Male.
Proof.
  split; [vm_compute; reflexivity|]. split.
  - apply (proj1 (heuristic_exception_overrides exception_heuristic (s "lubov") _ eq_refl
                    ltac:(vm_compute; reflexivity))).
    vm_compute. reflexivity.
  - split; [vm_compute; reflexivity|].
    apply (proj2 (heuristic_exception_overrides exception_heuristic (s "ilya") _ eq_refl
                    ltac:(vm_compute; reflexivity)));
      vm_compute; reflexivity.
Defined.

Lemma heuristic_androgynous_suffix_blocks_witness :
  gender.GenderHeuristic.find_suffix (s "sasha")
    (gender.female (gender.suffixes suffix_heuristic)) = true /\
  gender.GenderHeuristic.detect_gender suffix_heuristic (s "sasha") = None.
Proof.
  split; [vm_compute; reflexivity|].
  apply heuristic_androgynous_suffix_blocks; vm_compute; reflexivity.
Defined.

Lemma deprecated_detect_gender_agrees_witness :
  Petrovich.detect_gender sample_lowercase sample_gender (s "Petrovna") = Female /\
  Petrovich.detect_gender sample_lowercase sample_gender (s "Petrovna") =
    gender.detect_gender sample_lowercase sample_gender (Some (s "Ivanov")) (Some (s "Ivan"))
      (Some (s "Petrovna")).
Proof.
  split; [vm_compute; reflexivity|].
  apply deprecated_detect_gender_agrees. vm_compute. discriminate.
Defined.

Lemma deprecated_detect_gender_inconclusive_witness :
  gender.detect_gender sample_lowercase sample_gender (Some (s "Ivanov")) None (Some (s "Bob")) = Male /\
  Petrovich.detect_gender sample_lowercase sample_gender (s "Bob") = Androgynous.
Proof.
  split; [vm_compute; reflexivity|].
  apply deprecated_detect_gender_inconclusive. vm_compute. reflexivity.
Defined.

Lemma parse_modifier_roundtrip_witness :
  parse_modifier (repeat hyphen 2 ++ s "ya") = Some (2, s "ya").
Proof.
  apply (parse_modifier_roundtrip 2 (s "ya")).
  - vm_compute. reflexivity.
  - intro H. vm_compute in H. discriminate.
Defined.
